(** * semantic-kernel-python-webapi: token cache, tool schema and routes

    A shallow embedding of [semantic-kernel-python-webapi/main.py]:
    the closure returned by [auth_callback_factory], the tool list built
    by the callback handed to [FunctionChoiceBehavior.configure], and the
    two FastAPI routes [root] and [chat]. *)

From stdpp Require Import base list strings.
From Stdlib Require Import ZArith Lia.

Local Open Scope string_scope.
Local Open Scope list_scope.
Local Open Scope Z_scope.

(** ** Python values the program handles *)

(** [x or ""] on an optional string: [None] and the empty string are both
    falsy, so both give the empty string. *)
Definition or_empty (x : option string) : string :=
  match x with
  | Some s => if decide (s = "") then "" else s
  | None => ""
  end.

(** [getattr(obj, attr, default)] on an attribute that may be missing. *)
Definition getattr {A : Type} (attribute : option A) (default : A) : A :=
  match attribute with
  | Some a => a
  | None => default
  end.

(** [sep.join(parts)]. *)
Fixpoint join (sep : string) (parts : list string) : string :=
  match parts with
  | [] => ""
  | [p] => p
  | p :: rest => p +:+ sep +:+ join sep rest
  end.

(** Exceptions that leave [auth_callback]. *)
Inductive Exception :=
| FunctionExecutionException (description : string)
| Propagated (what : string).

Inductive Result (A : Type) :=
| Ok (a : A)
| Raise (e : Exception).
Arguments Ok {A} a.
Arguments Raise {A} e.

(** ** The credential issuer ([DefaultAzureCredential().get_token]) *)

Definition Scope := string.

Record AccessToken := mkAccessToken { token : string; expires_on : Z }.

(** What one [credential.get_token(scope)] call does: it returns a token,
    raises [ClientAuthenticationError] (which may or may not carry a
    [messages] attribute), or raises something else. *)
Inductive IssuerReply :=
| Issued (t : AccessToken)
| ClientAuthenticationError (messages : option (list string))
| OtherError (what : string).

(** ** Process memory

    [cells] holds the [auth_token] variable of every closure created so
    far, one cell per call of [auth_callback_factory]; [get_token_calls]
    logs the scope of every request sent to the issuer, oldest first. *)
Record World := mkWorld {
  cells : list (option AccessToken);
  get_token_calls : list Scope
}.

Definition M (A : Type) : Type := World -> Result A * World.

Definition ret {A} (a : A) : M A := fun w => (Ok a, w).

Definition raise {A} (e : Exception) : M A := fun w => (Raise e, w).

Definition bind {A B} (m : M A) (k : A -> M B) : M B :=
  fun w =>
    match m w with
    | (Ok a, w') => k a w'
    | (Raise e, w') => (Raise e, w')
    end.

Notation "'let!' x ':=' m 'in' k" := (bind m (fun x => k))
  (at level 10, x name, m at level 100, k at level 200).
Notation "'do!' m 'in' k" := (bind m (fun _ => k))
  (at level 10, m at level 100, k at level 200).

(** Reading and assigning the captured variable of a closure. *)
Definition read_cell (i : nat) : M (option AccessToken) :=
  fun w => (Ok (default None (cells w !! i)), w).

Definition write_cell (i : nat) (v : option AccessToken) : M unit :=
  fun w => (Ok tt, mkWorld (<[i := v]> (cells w)) (get_token_calls w)).

(** A closure returned by [auth_callback_factory]: the captured [scope]
    and the cell of its [auth_token]. *)
Record Closure := mkClosure { scope : Scope; cell : nat }.

Section TokenCache.

(** The issuer is outside the program: [issuer s n] is its reply to a
    request for scope [s] when [n] requests were made before. *)
Variable issuer : Scope -> nat -> IssuerReply.

Definition credential_get_token (s : Scope) : M IssuerReply :=
  fun w =>
    (Ok (issuer s (length (get_token_calls w))),
     mkWorld (cells w) (get_token_calls w ++ [s])).

(** [auth_callback_factory(scope)]: [auth_token = None] in a new cell. *)
Definition auth_callback_factory (s : Scope) : M Closure :=
  fun w =>
    (Ok (mkClosure s (length (cells w))),
     mkWorld (cells w ++ [None]) (get_token_calls w)).

(** [not auth_token or auth_token.expires_on < current_utc_timestamp] *)
Definition needs_refresh (auth_token : option AccessToken)
    (current_utc_timestamp : Z) : bool :=
  match auth_token with
  | None => true
  | Some t => expires_on t <? current_utc_timestamp
  end.

Definition failure_prefix : string :=
  "Failed to retrieve the client auth token with messages: ".

(** The body of [auth_callback]; [current_utc_timestamp] is the clock
    reading [int(datetime.now(utc).timestamp())] of this call. *)
Definition auth_callback (c : Closure) (current_utc_timestamp : Z) : M string :=
  let! auth_token := read_cell (cell c) in
  do! (if needs_refresh auth_token current_utc_timestamp then
     let! reply := credential_get_token (scope c) in
     match reply with
     | Issued t => write_cell (cell c) (Some t)
     | ClientAuthenticationError messages =>
         let err_messages := getattr messages [] in
         raise (FunctionExecutionException
                  (failure_prefix +:+ join " " err_messages))
     | OtherError what => raise (Propagated what)
     end
   else ret tt) in
  let! auth_token := read_cell (cell c) in
  match auth_token with
  | Some t => ret (token t)
  | None => raise (Propagated "AttributeError")
  end.

End TokenCache.

(** ** Plugin metadata and the tool list *)

Module KernelParameterMetadata.
Record t := mk {
  name : string;
  description : option string;
  type_ : option string;
  is_required : bool
}.
End KernelParameterMetadata.

Module KernelFunctionMetadata.
Record t := mk {
  name : string;
  plugin_name : string;
  description : option string;
  parameters : list KernelParameterMetadata.t
}.
End KernelFunctionMetadata.

Module P := KernelParameterMetadata.
Module F := KernelFunctionMetadata.

(** The JSON-shaped values stored in [settings.tools]. A Python dict is
    an association list in insertion order without repeated keys. *)
#[local] Set Warnings "-register-all".
Inductive Json :=
| JString (s : string)
| JArray (items : list Json)
| JObject (fields : list (string * Json)).

(** [d[k] = v]: an existing key keeps its position and takes the new
    value, a new key goes last. *)
Fixpoint dict_setitem {V} (d : list (string * V)) (k : string) (v : V)
    : list (string * V) :=
  match d with
  | [] => [(k, v)]
  | (k', v') :: rest =>
      if decide (k' = k) then (k', v) :: rest
      else (k', v') :: dict_setitem rest k v
  end.

Fixpoint dict_lookup {V} (d : list (string * V)) (k : string) : option V :=
  match d with
  | [] => None
  | (k', v') :: rest => if decide (k' = k) then Some v' else dict_lookup rest k
  end.

(** [d.get(k, default)] where the key itself may be [None], which is a
    key of no table here. *)
Definition dict_get {V} (d : list (string * V)) (k : option string)
    (default : V) : V :=
  match k with
  | Some k => getattr (dict_lookup d k) default
  | None => default
  end.

(** [{key(x): value(x) for x in xs}] *)
Definition dict_comprehension {A V} (key : A -> string) (value : A -> V)
    (xs : list A) : list (string * V) :=
  fold_left (fun d x => dict_setitem d (key x) (value x)) xs [].

(** [[item(x) for x in xs if cond(x)]]: the loop that appends to the
    result list. *)
Definition list_comprehension {A B} (item : A -> B) (cond : A -> bool)
    (xs : list A) : list B :=
  fold_left (fun acc x => if cond x then acc ++ [item x] else acc) xs [].

Definition python_to_json_schema_type : list (string * string) :=
  [ ("str", "string");
    ("int", "integer");
    ("float", "number");
    ("bool", "boolean");
    ("list", "array");
    ("dict", "object") ].

(** The value of one entry of ["properties"]. *)
Definition property_schema (p : P.t) : Json :=
  JObject
    [ ("type", JString (dict_get python_to_json_schema_type (P.type_ p) "string"));
      ("description", JString (or_empty (P.description p))) ].

Definition properties (f : F.t) : list (string * Json) :=
  dict_comprehension P.name property_schema (F.parameters f).

Definition required (f : F.t) : list string :=
  list_comprehension P.name P.is_required (F.parameters f).

(** One element of the list assigned to [settings.tools]. *)
Definition tool (f : F.t) : Json :=
  JObject
    [ ("type", JString "function");
      ("function",
       JObject
         [ ("name", JString (F.name f));
           ("description", JString (or_empty (F.description f)));
           ("parameters",
            JObject
              [ ("type", JString "object");
                ("properties", JObject (properties f));
                ("required", JArray (map JString (required f))) ]) ]) ].

(** [FunctionCallChoiceConfiguration]: the lambda reads
    [getattr(config, "available_functions", [])]. *)
Record FunctionCallChoiceConfiguration := mkConfig {
  available_functions : option (list F.t)
}.

Record AzureChatPromptExecutionSettings := mkSettings {
  service_id : string;
  tool_choice : string;
  tools : option (list Json)
}.

(** The lambda passed to [configure]:
    [setattr(settings, "tools", [... for f in available_functions])]. *)
Definition update_settings_callback (config : FunctionCallChoiceConfiguration)
    (settings : AzureChatPromptExecutionSettings)
    : AzureChatPromptExecutionSettings :=
  mkSettings (service_id settings) (tool_choice settings)
    (Some (list_comprehension tool (fun _ => true)
             (getattr (available_functions config) []))).

(** ** The kernel and the plugin filter *)

Record Kernel := mkKernel {
  services : list string;
  functions : list F.t
}.

Definition add_service (id : string) (k : Kernel) : Kernel :=
  mkKernel (services k ++ [id]) (functions k).

(** [kernel.add_plugin(plugin, name)]: the plugin's functions are
    registered under the plugin name [name]. *)
Definition add_plugin (plugin_functions : list F.t) (name : string)
    (k : Kernel) : Kernel :=
  mkKernel (services k)
    (functions k ++
     map (fun f => F.mk (F.name f) name (F.description f) (F.parameters f))
         plugin_functions).

(** [kernel.add_function(prompt=..., plugin_name=..., function_name=...)] *)
Definition add_function (f : F.t) (k : Kernel) : Kernel :=
  mkKernel (services k) (functions k ++ [f]).

(** Modelled from the spec: [FunctionChoiceBehavior.Auto(filters=...)]
    and its [configure] method belong to the semantic_kernel package and
    are not part of this repository. Following section 4.2 of the
    specification, the configuration handed to the callback lists the
    registered functions whose owning plugin name is not in
    [excluded_plugins], in registration order. *)
Definition excluded (excluded_plugins : list string) (f : F.t) : bool :=
  bool_decide (F.plugin_name f ∈ excluded_plugins).

(** Modelled from the spec: the configuration semantic_kernel builds for
    a filter with [excluded_plugins] (section 4.2, eligibility). *)
Definition get_config (k : Kernel) (excluded_plugins : list string)
    : FunctionCallChoiceConfiguration :=
  mkConfig
    (Some (List.filter (fun f => negb (excluded excluded_plugins f))
             (functions k))).

(** Modelled from the spec: semantic_kernel's [configure] hands the
    configuration and the settings to the callback it is given. *)
Definition configure (excluded_plugins : list string) (k : Kernel)
    (callback : FunctionCallChoiceConfiguration ->
                AzureChatPromptExecutionSettings ->
                AzureChatPromptExecutionSettings)
    (settings : AzureChatPromptExecutionSettings)
    : AzureChatPromptExecutionSettings :=
  callback (get_config k excluded_plugins) settings.

(** ** The routes *)

Record Response := mkResponse {
  status_code : Z;
  location : option string;
  body : list (string * string)
}.

(** Starlette's [RedirectResponse(url, status_code=307)]: [root] passes
    only the url, so the response carries the default status. *)
Definition default_redirect_status : Z := 307.

Definition RedirectResponse (url : string) (status : Z) : Response :=
  mkResponse status (Some url) [].

Definition root : Response :=
  RedirectResponse "/docs" default_redirect_status.

(** A use of a credential callback made by the completion backend while
    [kernel.invoke] runs: the chat service asks [ad_token_provider] for a
    token, the sessions tool asks its [auth_callback]; each carries the
    clock reading of that call. *)
Inductive CredentialUse :=
| UseAdTokenProvider (current_utc_timestamp : Z)
| UseSessionsAuth (current_utc_timestamp : Z).

Section Chat.

Variable issuer : Scope -> nat -> IssuerReply.

(** What the sessions plugin exposes, and the metadata of the prompt
    function: both come from semantic_kernel. *)
Variable sessions_tool_functions : list F.t.
Variable chat_description : option string.
Variable chat_parameters : list P.t.

(** The completion backend: from the message and the request settings
    it decides which credential callbacks run, in which order and when,
    and the final answer text. *)
Variable backend :
  string -> AzureChatPromptExecutionSettings -> list CredentialUse * string.

Definition cognitive_scope : Scope := "https://cognitiveservices.azure.com/.default".
Definition sessions_scope : Scope := "https://dynamicsessions.io/.default".

Definition chat_function : F.t :=
  F.mk "Chat" "ChatBot" chat_description chat_parameters.

(** Lines 63-84: the kernel after the three registrations. *)
Definition chat_kernel : Kernel :=
  add_function chat_function
    (add_plugin sessions_tool_functions "SessionsTool"
       (add_service "sessions-tool" (mkKernel [] []))).

Definition excluded_plugins : list string := ["ChatBot"].

(** Lines 86-126: the request settings after [configure]. *)
Definition req_settings : AzureChatPromptExecutionSettings :=
  configure excluded_plugins chat_kernel update_settings_callback
    (mkSettings "sessions-tool" "auto" None).

(** The scope of the callback a credential use goes to. *)
Definition use_scope (u : CredentialUse) : Scope :=
  match u with
  | UseAdTokenProvider _ => cognitive_scope
  | UseSessionsAuth _ => sessions_scope
  end.

(** Running the credential uses of one [kernel.invoke]; the first
    exception ends the invocation. The tokens obtained are returned in
    order, each with the scope of the callback that returned it. *)
Fixpoint run_uses (ad_token_provider auth : Closure)
    (uses : list CredentialUse) : M (list (Scope * string)) :=
  match uses with
  | [] => ret []
  | u :: rest =>
      let! tok :=
        match u with
        | UseAdTokenProvider now => auth_callback issuer ad_token_provider now
        | UseSessionsAuth now => auth_callback issuer auth now
        end in
      let! toks := run_uses ad_token_provider auth rest in
      ret ((use_scope u, tok) :: toks)
  end.

(** Lines 68 and 76: the two callbacks of one request. *)
Definition chat_credentials : M (Closure * Closure) :=
  let! ad_token_provider := auth_callback_factory cognitive_scope in
  let! auth := auth_callback_factory sessions_scope in
  ret (ad_token_provider, auth).

(** [chat(message)]; the result pairs the HTTP response body with the
    tokens the callbacks handed out during the request. Only the
    credential callbacks can make this model raise: a failing
    [AzureChatCompletion] or [SessionsPythonTool] constructor and a
    [kernel.invoke] that fails for another reason have no counterpart
    here, so nothing below concludes that a request succeeds. *)
Definition chat (message : string)
    : M (list (string * string) * list (Scope * string)) :=
  let! credentials := chat_credentials in
  let '(uses, answer) := backend message req_settings in
  let! toks := run_uses (fst credentials) (snd credentials) uses in
  ret ([("output", answer)], toks).

End Chat.

(** ** Any interleaving of factory and callback calls

    Requests run concurrently, so the calls of the factory and of the
    closures it returned may come in any order. [Create s] is
    [auth_callback_factory(s)]; [Invoke k now] calls the [k]-th closure
    created, at clock reading [now]. *)
Inductive Event :=
| Create (s : Scope)
| Invoke (k : nat) (now : Z).

Record Process := mkProcess {
  world : World;
  closures : list Closure;
  handed_out : list (Scope * string)
}.

Definition step (issuer : Scope -> nat -> IssuerReply) (p : Process)
    (e : Event) : Process :=
  match e with
  | Create s =>
      match auth_callback_factory s (world p) with
      | (Ok c, w') => mkProcess w' (closures p ++ [c]) (handed_out p)
      | (Raise _, w') => mkProcess w' (closures p) (handed_out p)
      end
  | Invoke k now =>
      match closures p !! k with
      | Some c =>
          match auth_callback issuer c now (world p) with
          | (Ok tok, w') =>
              mkProcess w' (closures p) (handed_out p ++ [(scope c, tok)])
          | (Raise _, w') => mkProcess w' (closures p) (handed_out p)
          end
      | None => p
      end
  end.

Definition start : Process := mkProcess (mkWorld [] []) [] [].

Definition run (issuer : Scope -> nat -> IssuerReply) (events : list Event)
    : Process :=
  fold_left (step issuer) events start.

(** The token [tk] was the issuer's reply to a request for scope [s]
    recorded in the log. *)
Definition issued_for (issuer : Scope -> nat -> IssuerReply)
    (log : list Scope) (s : Scope) (tk : AccessToken) : Prop :=
  exists n, log !! n = Some s /\ issuer s n = Issued tk.

(** The closure and the clock reading of a credential use. *)
Definition use_closure (a b : Closure) (u : CredentialUse) : Closure :=
  match u with
  | UseAdTokenProvider _ => a
  | UseSessionsAuth _ => b
  end.

Definition use_time (u : CredentialUse) : Z :=
  match u with
  | UseAdTokenProvider now | UseSessionsAuth now => now
  end.

(** Reading a nested field of a JSON object, as [j[k1][k2]...]. *)
Fixpoint json_path (path : list string) (j : Json) : option Json :=
  match path with
  | [] => Some j
  | k :: rest =>
      match j with
      | JObject fields =>
          match dict_lookup fields k with
          | Some v => json_path rest v
          | None => None
          end
      | _ => None
      end
  end.

(** The last element of a list that satisfies a test. *)
Definition last_such {A} (test : A -> bool) (xs : list A) : option A :=
  fold_left (fun found x => if test x then Some x else found) xs None.

(** The routes registered with [@app.get]. *)
Inductive Endpoint := RootEndpoint | ChatEndpoint.

Definition app_get : list (string * Endpoint) :=
  [("/", RootEndpoint); ("/chat", ChatEndpoint)].

(** The function of the specification's example: parameters [n], an
    [int] that is required, and [s], a [str] that is not. *)
Definition example_function : F.t :=
  F.mk "example" "SessionsTool" None
    [ P.mk "n" None (Some "int") true;
      P.mk "s" None (Some "str") false ].

(** Counting the events of a run and the slots that hold a token. *)
Definition is_create (e : Event) : bool :=
  match e with Create _ => true | Invoke _ _ => false end.

Definition is_invoke (e : Event) : bool :=
  match e with Create _ => false | Invoke _ _ => true end.

Fixpoint filled_slots (slots : list (option AccessToken)) : nat :=
  match slots with
  | [] => 0
  | Some _ :: rest => S (filled_slots rest)
  | None :: rest => filled_slots rest
  end.

(** A slot that will not be refreshed up to second [T]: it is empty and
    waits for its first use, or its token lasts until [T] at least. *)
Definition lasts_until (T : Z) (slot : option AccessToken) : Prop :=
  match slot with
  | None => True
  | Some t => T <= expires_on t
  end.

(** The issuer grants every request, with a token that lasts until [T]. *)
Definition grants_until (issuer : Scope -> nat -> IssuerReply) (T : Z) : Prop :=
  forall s n, exists tk, issuer s n = Issued tk /\ T <= expires_on tk.

(** The invariant of a run while the tokens last: one request per filled
    slot, and no slot due for a refresh. *)
Definition requests_match_slots (T : Z) (p : Process) : Prop :=
  length (get_token_calls (world p)) = filled_slots (cells (world p)) /\
  Forall (lasts_until T) (cells (world p)).


(** ** Predicates used in the statements *)

(** What a refreshing call does: one request to the issuer; a granted
    token overwrites the slot and is returned, a failure leaves the slot
    as it was. *)
Definition refreshed (issuer : Scope -> nat -> IssuerReply) (c : Closure)
    (now : Z) (w : World) : Prop :=
  get_token_calls (snd (auth_callback issuer c now w)) =
    get_token_calls w ++ [scope c] /\
  match issuer (scope c) (length (get_token_calls w)) with
  | Issued t' =>
      fst (auth_callback issuer c now w) = Ok (token t') /\
      cells (snd (auth_callback issuer c now w)) = <[cell c := Some t']> (cells w)
  | _ =>
      (exists e, fst (auth_callback issuer c now w) = Raise e) /\
      cells (snd (auth_callback issuer c now w)) = cells w
  end.

(** The issuer's reply is an exception of either kind. *)
Definition issuer_raises (r : IssuerReply) : Prop :=
  match r with
  | Issued _ => False
  | ClientAuthenticationError _ | OtherError _ => True
  end.

(** The invariant of [run]: every closure owns the cell of its index, and
    every token stored in a slot or handed out came from a request made
    for the scope of the closure concerned. *)
Definition slots_owned (issuer : Scope -> nat -> IssuerReply) (p : Process)
    : Prop :=
  length (closures p) = length (cells (world p)) /\
  (forall k c, closures p !! k = Some c -> cell c = k) /\
  (forall k c tk,
     closures p !! k = Some c ->
     cells (world p) !! k = Some (Some tk) ->
     issued_for issuer (get_token_calls (world p)) (scope c) tk) /\
  (forall B tok,
     (B, tok) ∈ handed_out p ->
     exists tk, issued_for issuer (get_token_calls (world p)) B tk /\
                token tk = tok).

(** * Properties *)

(** ** One call of [auth_callback] *)

Section TokenCacheFacts.

Variable issuer : Scope -> nat -> IssuerReply.

Lemma needs_refresh_false_inv slot now :
  needs_refresh slot now = false ->
  exists t, slot = Some t /\ now <= expires_on t.
Proof.
  destruct slot as [t|]; simpl; [|discriminate].
  intros H. exists t. split; [reflexivity|]. apply Z.ltb_ge in H. exact H.
Qed.

Lemma needs_refresh_true_inv slot now :
  needs_refresh slot now = true ->
  slot = None \/ exists t, slot = Some t /\ expires_on t < now.
Proof.
  destruct slot as [t|]; simpl; [|now left].
  intros H. right. exists t. split; [reflexivity|]. now apply Z.ltb_lt.
Qed.

(** The slot is filled and fresh enough: nothing but the slot is read. *)
Lemma auth_callback_cached c now w t :
  cells w !! cell c = Some (Some t) ->
  now <= expires_on t ->
  auth_callback issuer c now w = (Ok (token t), w).
Proof.
  intros Hc Hle.
  unfold auth_callback, bind, read_cell. rewrite Hc. simpl.
  replace (expires_on t <? now) with false
    by (symmetry; apply Z.ltb_ge; exact Hle).
  simpl. rewrite Hc. reflexivity.
Qed.

(** The slot is empty or stale and the issuer grants a token. *)
Lemma auth_callback_issued c now w slot t' :
  cells w !! cell c = Some slot ->
  needs_refresh slot now = true ->
  issuer (scope c) (length (get_token_calls w)) = Issued t' ->
  auth_callback issuer c now w =
    (Ok (token t'),
     mkWorld (<[cell c := Some t']> (cells w)) (get_token_calls w ++ [scope c])).
Proof.
  intros Hc Hn Hi.
  unfold auth_callback, bind, read_cell. rewrite Hc. simpl. rewrite Hn.
  unfold credential_get_token. rewrite Hi. simpl.
  rewrite list_lookup_insert_eq by (eapply lookup_lt_Some; exact Hc).
  reflexivity.
Qed.

(** The slot is empty or stale and the issuer raises. *)
Lemma auth_callback_rejected c now w slot messages :
  cells w !! cell c = Some slot ->
  needs_refresh slot now = true ->
  issuer (scope c) (length (get_token_calls w)) = ClientAuthenticationError messages ->
  auth_callback issuer c now w =
    (Raise (FunctionExecutionException
              (failure_prefix +:+ join " " (getattr messages []))),
     mkWorld (cells w) (get_token_calls w ++ [scope c])).
Proof.
  intros Hc Hn Hi.
  unfold auth_callback, bind, read_cell. rewrite Hc. simpl. rewrite Hn.
  unfold credential_get_token. rewrite Hi. reflexivity.
Qed.

Lemma auth_callback_other_error c now w slot what :
  cells w !! cell c = Some slot ->
  needs_refresh slot now = true ->
  issuer (scope c) (length (get_token_calls w)) = OtherError what ->
  auth_callback issuer c now w =
    (Raise (Propagated what),
     mkWorld (cells w) (get_token_calls w ++ [scope c])).
Proof.
  intros Hc Hn Hi.
  unfold auth_callback, bind, read_cell. rewrite Hc. simpl. rewrite Hn.
  unfold credential_get_token. rewrite Hi. reflexivity.
Qed.

(** Whatever happens, a call that refreshes sends exactly one request. *)
Lemma auth_callback_refresh_log c now w slot :
  cells w !! cell c = Some slot ->
  needs_refresh slot now = true ->
  get_token_calls (snd (auth_callback issuer c now w)) =
    get_token_calls w ++ [scope c].
Proof.
  intros Hc Hn.
  destruct (issuer (scope c) (length (get_token_calls w))) as [t'|m|e] eqn:Hi.
  - erewrite auth_callback_issued by eassumption. reflexivity.
  - erewrite auth_callback_rejected by eassumption. reflexivity.
  - erewrite auth_callback_other_error by eassumption. reflexivity.
Qed.

End TokenCacheFacts.

(** ** The refresh policy *)

Lemma refreshed_intro issuer c now w slot :
  cells w !! cell c = Some slot ->
  needs_refresh slot now = true ->
  refreshed issuer c now w.
Proof.
  intros Hc Hn. split.
  - eapply auth_callback_refresh_log; eassumption.
  - destruct (issuer (scope c) (length (get_token_calls w))) as [t'|m|e] eqn:Hi.
    + erewrite auth_callback_issued by eassumption. split; reflexivity.
    + erewrite auth_callback_rejected by eassumption.
      split; [eexists|]; reflexivity.
    + erewrite auth_callback_other_error by eassumption.
      split; [eexists|]; reflexivity.
Qed.

(** C2, as the specification words it, fails at the expiry instant: with
    a token expiring at second 100 in the slot, a call at second 100 hands
    out the cached token and sends nothing to the issuer. *)
Lemma cached_token_returned_at_expiry_instant :
  let w := mkWorld [Some (mkAccessToken "old" 100)] [] in
  let c := mkClosure "https://dynamicsessions.io/.default" 0 in
  let issuer := fun (_ : Scope) (_ : nat) => Issued (mkAccessToken "new" 200) in
  100 >= expires_on (mkAccessToken "old" 100) /\
  auth_callback issuer c 100 w = (Ok "old", w).
Proof. split; [simpl; lia | reflexivity]. Qed.

(** C2 (amended): the slot is refreshed exactly when it is empty or its
    [expires_on] is strictly before the current whole second; a token
    whose [expires_on] is the current second or later is returned
    unchanged, with no request to the issuer and no change of state. *)
Theorem auth_callback_refresh_policy issuer c now w slot :
  cells w !! cell c = Some slot ->
  match slot with
  | Some t =>
      (now <= expires_on t -> auth_callback issuer c now w = (Ok (token t), w)) /\
      (expires_on t < now -> refreshed issuer c now w)
  | None => refreshed issuer c now w
  end.
Proof.
  intros Hc. destruct slot as [t|].
  - split; intros H.
    + now apply auth_callback_cached.
    + eapply refreshed_intro; [exact Hc|]. simpl. now apply Z.ltb_lt.
  - eapply refreshed_intro; [exact Hc | reflexivity].
Qed.

Lemma auth_callback_refresh_policy_witness :
  let w := mkWorld [Some (mkAccessToken "old" 100)] [] in
  let c := mkClosure "https://dynamicsessions.io/.default" 0 in
  let issuer := fun (_ : Scope) (_ : nat) => Issued (mkAccessToken "new" 200) in
  cells w !! cell c = Some (Some (mkAccessToken "old" 100)) /\
  (101 <= 100 -> auth_callback issuer c 101 w = (Ok "old", w)) /\
  (100 < 101 -> refreshed issuer c 101 w).
Proof.
  split; [reflexivity|].
  apply (auth_callback_refresh_policy
           (fun _ _ => Issued (mkAccessToken "new" 200))
           (mkClosure "https://dynamicsessions.io/.default" 0) 101
           (mkWorld [Some (mkAccessToken "old" 100)] [])
           (Some (mkAccessToken "old" 100))).
  reflexivity.
Defined.

(** After a successful call the slot holds the token that was returned. *)
Lemma auth_callback_ok_slot issuer c now w slot tok :
  cells w !! cell c = Some slot ->
  fst (auth_callback issuer c now w) = Ok tok ->
  exists tk,
    cells (snd (auth_callback issuer c now w)) !! cell c = Some (Some tk) /\
    token tk = tok.
Proof.
  intros Hc Hok.
  destruct (needs_refresh slot now) eqn:Hn.
  - destruct (issuer (scope c) (length (get_token_calls w))) as [t'|m|e] eqn:Hi.
    + erewrite auth_callback_issued in * by eassumption. simpl in *.
      exists t'. split; [|congruence].
      apply list_lookup_insert_eq. eapply lookup_lt_Some; exact Hc.
    + erewrite auth_callback_rejected in Hok by eassumption. discriminate.
    + erewrite auth_callback_other_error in Hok by eassumption. discriminate.
  - apply needs_refresh_false_inv in Hn as (t & -> & Hle).
    rewrite (auth_callback_cached issuer c now w t Hc Hle) in *. simpl in *.
    exists t. split; [exact Hc | congruence].
Qed.

(** C4: once a call has returned a token, a second call of the same
    getter no later than that token's [expires_on] returns the identical
    token value and leaves the whole state, the issuer log included, as it
    was; a call after [expires_on] sends exactly one new request. *)
Theorem token_reused_until_expiry issuer c t1 t2 w slot tok :
  cells w !! cell c = Some slot ->
  fst (auth_callback issuer c t1 w) = Ok tok ->
  exists tk,
    cells (snd (auth_callback issuer c t1 w)) !! cell c = Some (Some tk) /\
    token tk = tok /\
    (t2 <= expires_on tk ->
       auth_callback issuer c t2 (snd (auth_callback issuer c t1 w)) =
         (Ok tok, snd (auth_callback issuer c t1 w))) /\
    (expires_on tk < t2 ->
       get_token_calls
         (snd (auth_callback issuer c t2 (snd (auth_callback issuer c t1 w)))) =
       get_token_calls (snd (auth_callback issuer c t1 w)) ++ [scope c]).
Proof.
  intros Hc Hok.
  destruct (auth_callback_ok_slot issuer c t1 w slot tok Hc Hok) as (tk & Hs & Ht).
  exists tk. repeat split; try assumption.
  - intros Hle. rewrite <- Ht. now apply auth_callback_cached.
  - intros Hlt. eapply auth_callback_refresh_log; [exact Hs|].
    simpl. now apply Z.ltb_lt.
Qed.

Lemma token_reused_until_expiry_witness :
  let issuer := fun (_ : Scope) (n : nat) =>
    Issued (mkAccessToken (if decide (n = 0%nat) then "first" else "second") 200) in
  let c := mkClosure "https://dynamicsessions.io/.default" 0 in
  let w := mkWorld [None] [] in
  exists tk,
    cells (snd (auth_callback issuer c 100 w)) !! cell c = Some (Some tk) /\
    token tk = "first" /\
    (150 <= expires_on tk ->
       auth_callback issuer c 150 (snd (auth_callback issuer c 100 w)) =
         (Ok "first", snd (auth_callback issuer c 100 w))) /\
    (expires_on tk < 150 ->
       get_token_calls
         (snd (auth_callback issuer c 150 (snd (auth_callback issuer c 100 w)))) =
       get_token_calls (snd (auth_callback issuer c 100 w)) ++ [scope c]).
Proof.
  apply (token_reused_until_expiry
           (fun _ n => Issued (mkAccessToken
                                 (if decide (n = 0%nat) then "first" else "second") 200))
           (mkClosure "https://dynamicsessions.io/.default" 0) 100 150
           (mkWorld [None] []) None "first");
    reflexivity.
Defined.

(** ** Failures of the issuer *)

(** C8: when the issuer rejects the request with a
    [ClientAuthenticationError], the getter raises a
    [FunctionExecutionException] whose description is the fixed text
    followed by the issuer's messages joined with single spaces (no
    messages when the error carries none); the issuer was asked exactly
    once, so nothing is retried, and the slot is untouched. *)
Theorem rejected_request_raises_joined_messages issuer c now w slot messages :
  cells w !! cell c = Some slot ->
  needs_refresh slot now = true ->
  issuer (scope c) (length (get_token_calls w)) = ClientAuthenticationError messages ->
  fst (auth_callback issuer c now w) =
    Raise (FunctionExecutionException
             ("Failed to retrieve the client auth token with messages: "
              +:+ join " " (getattr messages []))) /\
  get_token_calls (snd (auth_callback issuer c now w)) =
    get_token_calls w ++ [scope c] /\
  cells (snd (auth_callback issuer c now w)) = cells w.
Proof.
  intros Hc Hn Hi.
  rewrite (auth_callback_rejected issuer c now w slot messages Hc Hn Hi).
  repeat split.
Qed.

Lemma rejected_request_raises_joined_messages_witness :
  let issuer := fun (_ : Scope) (_ : nat) =>
    ClientAuthenticationError (Some ["no managed identity"; "az login required"]) in
  let c := mkClosure "https://cognitiveservices.azure.com/.default" 0 in
  let w := mkWorld [None] [] in
  fst (auth_callback issuer c 100 w) =
    Raise (FunctionExecutionException
             "Failed to retrieve the client auth token with messages: no managed identity az login required") /\
  get_token_calls (snd (auth_callback issuer c 100 w)) =
    ["https://cognitiveservices.azure.com/.default"] /\
  cells (snd (auth_callback issuer c 100 w)) = [None].
Proof.
  apply (rejected_request_raises_joined_messages
           (fun _ _ => ClientAuthenticationError
                         (Some ["no managed identity"; "az login required"]))
           (mkClosure "https://cognitiveservices.azure.com/.default" 0) 100
           (mkWorld [None] []) None
           (Some ["no managed identity"; "az login required"]));
    reflexivity.
Defined.

(** C10: when the request to the issuer raises, the call raises and the
    slot keeps its previous content (empty, or the stale token); a later
    call, at the same second or after, asks the issuer again. *)
Theorem failed_refresh_keeps_slot issuer c t1 t2 w slot :
  cells w !! cell c = Some slot ->
  needs_refresh slot t1 = true ->
  issuer_raises (issuer (scope c) (length (get_token_calls w))) ->
  t1 <= t2 ->
  (exists e, fst (auth_callback issuer c t1 w) = Raise e) /\
  cells (snd (auth_callback issuer c t1 w)) = cells w /\
  get_token_calls
    (snd (auth_callback issuer c t2 (snd (auth_callback issuer c t1 w)))) =
  get_token_calls (snd (auth_callback issuer c t1 w)) ++ [scope c].
Proof.
  intros Hc Hn Hr Hle.
  assert (Hn2 : needs_refresh slot t2 = true).
  { destruct (needs_refresh_true_inv slot t1 Hn) as [-> | (t & -> & Hlt)];
      [reflexivity|]. simpl. apply Z.ltb_lt. lia. }
  destruct (refreshed_intro issuer c t1 w slot Hc Hn) as [_ Hcase].
  destruct (issuer (scope c) (length (get_token_calls w))); [contradiction | |];
    destruct Hcase as [He Hcells]; (split; [exact He|]); (split; [exact Hcells|]);
    (eapply auth_callback_refresh_log; [rewrite Hcells; exact Hc | exact Hn2]).
Qed.

Lemma failed_refresh_keeps_slot_witness :
  let issuer := fun (_ : Scope) (n : nat) =>
    if decide (n = 0%nat) then OtherError "CredentialUnavailableError"
    else Issued (mkAccessToken "fresh" 900) in
  let c := mkClosure "https://dynamicsessions.io/.default" 0 in
  let w := mkWorld [Some (mkAccessToken "stale" 50)] [] in
  (exists e, fst (auth_callback issuer c 100 w) = Raise e) /\
  cells (snd (auth_callback issuer c 100 w)) = cells w /\
  get_token_calls
    (snd (auth_callback issuer c 101 (snd (auth_callback issuer c 100 w)))) =
  get_token_calls (snd (auth_callback issuer c 100 w)) ++ [scope c].
Proof.
  apply (failed_refresh_keeps_slot
           (fun _ n => if decide (n = 0%nat)
                       then OtherError "CredentialUnavailableError"
                       else Issued (mkAccessToken "fresh" 900))
           (mkClosure "https://dynamicsessions.io/.default" 0) 100 101
           (mkWorld [Some (mkAccessToken "stale" 50)] [])
           (Some (mkAccessToken "stale" 50)));
    [reflexivity | reflexivity | exact I | lia].
Defined.

(** ** What one call can change *)

Lemma auth_callback_cases issuer c now w slot :
  cells w !! cell c = Some slot ->
  (exists t, slot = Some t /\ now <= expires_on t /\
     auth_callback issuer c now w = (Ok (token t), w)) \/
  (exists t', issuer (scope c) (length (get_token_calls w)) = Issued t' /\
     auth_callback issuer c now w =
       (Ok (token t'),
        mkWorld (<[cell c := Some t']> (cells w)) (get_token_calls w ++ [scope c]))) \/
  (exists e,
     auth_callback issuer c now w =
       (Raise e, mkWorld (cells w) (get_token_calls w ++ [scope c]))).
Proof.
  intros Hc. destruct (needs_refresh slot now) eqn:Hn.
  - right.
    destruct (issuer (scope c) (length (get_token_calls w))) as [t'|m|e] eqn:Hi.
    + left. exists t'. split; [reflexivity|].
      eapply auth_callback_issued; eassumption.
    + right. eexists. eapply auth_callback_rejected; eassumption.
    + right. eexists. eapply auth_callback_other_error; eassumption.
  - left. apply needs_refresh_false_inv in Hn as (t & -> & Hle).
    exists t. repeat split; [exact Hle|]. now apply auth_callback_cached.
Qed.

(** A call writes at most the cell of its own closure, and only a token. *)
Lemma auth_callback_cells issuer c now w :
  cells (snd (auth_callback issuer c now w)) = cells w \/
  exists t, cells (snd (auth_callback issuer c now w)) = <[cell c := Some t]> (cells w).
Proof.
  destruct (cells w !! cell c) as [slot|] eqn:Hc.
  - destruct (auth_callback_cases issuer c now w slot Hc)
      as [(t & _ & _ & ->) | [(t' & _ & ->) | (e & ->)]]; simpl; eauto.
  - unfold auth_callback, bind, read_cell, credential_get_token, write_cell.
    rewrite Hc. simpl.
    destruct (issuer (scope c) (length (get_token_calls w))) as [t'|m|e];
      simpl; eauto.
    rewrite list_insert_ge by (now apply lookup_ge_None).
    rewrite Hc. simpl. now left.
Qed.

Lemma auth_callback_length issuer c now w :
  length (cells (snd (auth_callback issuer c now w))) = length (cells w).
Proof.
  destruct (auth_callback_cells issuer c now w) as [-> | [t ->]];
    [reflexivity | apply length_insert].
Qed.

Lemma auth_callback_frame issuer c now w i :
  i <> cell c ->
  cells (snd (auth_callback issuer c now w)) !! i = cells w !! i.
Proof.
  intros Hne.
  destruct (auth_callback_cells issuer c now w) as [-> | [t ->]];
    [reflexivity | now apply list_lookup_insert_ne].
Qed.

(** A filled slot stays filled. *)
Lemma auth_callback_keeps_filled issuer c now w i t :
  cells w !! i = Some (Some t) ->
  exists t', cells (snd (auth_callback issuer c now w)) !! i = Some (Some t').
Proof.
  intros Hi.
  destruct (auth_callback_cells issuer c now w) as [-> | [t' ->]]; [eauto|].
  destruct (decide (i = cell c)) as [-> | Hne].
  - exists t'. apply list_lookup_insert_eq. eapply lookup_lt_Some; exact Hi.
  - exists t. rewrite list_lookup_insert_ne by congruence. exact Hi.
Qed.

(** The log of requests only grows, by nothing or by the closure's scope. *)
Lemma auth_callback_log issuer c now w :
  get_token_calls (snd (auth_callback issuer c now w)) = get_token_calls w \/
  get_token_calls (snd (auth_callback issuer c now w)) = get_token_calls w ++ [scope c].
Proof.
  destruct (needs_refresh (default None (cells w !! cell c)) now) eqn:Hn.
  - right. unfold auth_callback, bind, read_cell, credential_get_token, write_cell.
    simpl. rewrite Hn.
    destruct (issuer (scope c) (length (get_token_calls w))) as [t'|m|e];
      simpl; [|reflexivity|reflexivity].
    destruct (default None (<[cell c:=Some t']> (cells w) !! cell c)); reflexivity.
  - left. unfold auth_callback, bind, read_cell. simpl. rewrite Hn. simpl.
    destruct (default None (cells w !! cell c)); reflexivity.
Qed.

(** ** Tokens stay with the scope they were issued for *)

Lemma issued_for_app issuer log extra s tk :
  issued_for issuer log s tk -> issued_for issuer (log ++ extra) s tk.
Proof.
  intros (n & Hn & Hi). exists n. split; [|exact Hi].
  now apply lookup_app_l_Some.
Qed.

Lemma issued_for_last issuer log s tk :
  issuer s (length log) = Issued tk -> issued_for issuer (log ++ [s]) s tk.
Proof.
  intros Hi. exists (length log). split; [|exact Hi].
  now apply list_lookup_middle.
Qed.

Lemma slots_owned_start issuer : slots_owned issuer start.
Proof.
  repeat split; simpl.
  - intros k c Hk. rewrite lookup_nil in Hk. discriminate.
  - intros k c tk Hk _. rewrite lookup_nil in Hk. discriminate.
  - intros B tok Hin. apply elem_of_nil in Hin. contradiction.
Qed.

Lemma slots_owned_create issuer p s :
  slots_owned issuer p -> slots_owned issuer (step issuer p (Create s)).
Proof.
  intros (Hlen & Hcell & Hslot & Hout). unfold step, auth_callback_factory.
  simpl. repeat split; simpl.
  - rewrite !length_app. simpl. lia.
  - intros k c Hk. apply lookup_app_Some in Hk as [Hk | [Hge Hk]].
    + now apply Hcell.
    + destruct (k - length (closures p))%nat eqn:Hd; simpl in Hk; [|discriminate].
      injection Hk as <-. simpl. lia.
  - intros k c tk Hk Hs. apply lookup_app_Some in Hk as [Hk | [Hge Hk]].
    + apply (Hslot k c tk Hk).
      rewrite lookup_app_l in Hs; [exact Hs|].
      rewrite <- Hlen. eapply lookup_lt_Some; exact Hk.
    + rewrite lookup_app_r in Hs by lia.
      destruct (k - length (cells (world p)))%nat; simpl in Hs; discriminate.
  - exact Hout.
Qed.

Lemma slots_owned_invoke issuer p k now :
  slots_owned issuer p -> slots_owned issuer (step issuer p (Invoke k now)).
Proof.
  intros Hinv. pose proof Hinv as (Hlen & Hcell & Hslot & Hout).
  unfold step. destruct (closures p !! k) as [c|] eqn:Hk; [|exact Hinv].
  pose proof (Hcell k c Hk) as Hck.
  assert (Hlt : (k < length (cells (world p)))%nat)
    by (rewrite <- Hlen; eapply lookup_lt_Some; exact Hk).
  destruct (lookup_lt_is_Some_2 _ _ Hlt) as [slot Hs].
  rewrite <- Hck in Hs.
  destruct (auth_callback_cases issuer c now (world p) slot Hs)
    as [(t & -> & _ & ->) | [(t' & Hi & ->) | (e & ->)]]; rewrite Hck in *.
  - repeat split; simpl; try assumption.
    intros B tok Hin. apply elem_of_app in Hin as [Hin | Hin]; [now apply Hout|].
    apply list_elem_of_singleton in Hin. injection Hin as -> ->.
    exists t. split; [|reflexivity]. now apply (Hslot k c t).
  - repeat split; simpl.
    + now rewrite length_insert.
    + exact Hcell.
    + intros k' c' tk Hk' Hs'. destruct (decide (k' = k)) as [-> | Hne].
      * rewrite list_lookup_insert_eq in Hs' by exact Hlt.
        injection Hs' as <-. rewrite Hk in Hk'. injection Hk' as <-.
        now apply issued_for_last.
      * rewrite list_lookup_insert_ne in Hs' by congruence.
        apply issued_for_app. now apply (Hslot k' c' tk).
    + intros B tok Hin. apply elem_of_app in Hin as [Hin | Hin].
      * destruct (Hout B tok Hin) as (tk & Hissued & Htok).
        exists tk. split; [now apply issued_for_app | exact Htok].
      * apply list_elem_of_singleton in Hin. injection Hin as -> ->.
        exists t'. split; [now apply issued_for_last | reflexivity].
  - repeat split; simpl; try assumption.
    + intros k' c' tk Hk' Hs'. apply issued_for_app. now apply (Hslot k' c' tk).
    + intros B tok Hin. destruct (Hout B tok Hin) as (tk & Hissued & Htok).
      exists tk. split; [now apply issued_for_app | exact Htok].
Qed.

Lemma slots_owned_fold issuer events p :
  slots_owned issuer p -> slots_owned issuer (fold_left (step issuer) events p).
Proof.
  revert p. induction events as [|e events IH]; intros p Hp; [exact Hp|].
  simpl. apply IH. destruct e.
  - now apply slots_owned_create.
  - now apply slots_owned_invoke.
Qed.

Lemma slots_owned_run issuer events : slots_owned issuer (run issuer events).
Proof. apply slots_owned_fold, slots_owned_start. Qed.

(** What a call returns depends on the closure's own slot and on the
    issuer only: two states that agree on that slot and on the number of
    requests made give the same result, whatever the other slots hold. *)
Lemma auth_callback_own_slot_only issuer c now w w' :
  cells w !! cell c = cells w' !! cell c ->
  length (get_token_calls w) = length (get_token_calls w') ->
  fst (auth_callback issuer c now w) = fst (auth_callback issuer c now w').
Proof.
  intros Hcell Hlog. destruct (cells w !! cell c) as [slot|] eqn:Hc;
    symmetry in Hcell.
  - destruct (needs_refresh slot now) eqn:Hn.
    + destruct (issuer (scope c) (length (get_token_calls w))) as [t'|m|e] eqn:Hi;
        pose proof Hi as Hi'; rewrite Hlog in Hi'.
      * rewrite (auth_callback_issued issuer c now w slot t' Hc Hn Hi).
        now rewrite (auth_callback_issued issuer c now w' slot t' Hcell Hn Hi').
      * rewrite (auth_callback_rejected issuer c now w slot m Hc Hn Hi).
        now rewrite (auth_callback_rejected issuer c now w' slot m Hcell Hn Hi').
      * rewrite (auth_callback_other_error issuer c now w slot e Hc Hn Hi).
        now rewrite (auth_callback_other_error issuer c now w' slot e Hcell Hn Hi').
    + apply needs_refresh_false_inv in Hn as (t & -> & Hle).
      rewrite (auth_callback_cached issuer c now w t Hc Hle).
      now rewrite (auth_callback_cached issuer c now w' t Hcell Hle).
  - unfold auth_callback, bind, read_cell, credential_get_token, write_cell.
    rewrite Hc, Hcell. simpl. rewrite Hlog.
    destruct (issuer (scope c) (length (get_token_calls w'))); simpl;
      [|reflexivity|reflexivity].
    rewrite !list_insert_ge by (now apply lookup_ge_None).
    now rewrite Hc, Hcell.
Qed.

Lemma chat_credentials_spec w :
  chat_credentials w =
    (Ok (mkClosure cognitive_scope (length (cells w)),
         mkClosure sessions_scope (S (length (cells w)))),
     mkWorld (cells w ++ [None; None]) (get_token_calls w)).
Proof.
  unfold chat_credentials, bind, auth_callback_factory, ret. simpl.
  rewrite length_app, <- app_assoc. simpl.
  now replace (length (cells w) + 1)%nat with (S (length (cells w))) by lia.
Qed.

(** C7: in any interleaving of factory and callback calls from process
    start, a token handed out by a callback for scope [B] was the
    issuer's reply to a request made for [B]; a call never writes a slot
    other than its own, and its result does not depend on the other
    slots; and the two callbacks of a request, for the cognitive-services
    and the dynamic-sessions scope, get two different new slots. *)
Theorem tokens_never_cross_scopes issuer events :
  (forall B tok,
     (B, tok) ∈ handed_out (run issuer events) ->
     exists n tk,
       get_token_calls (world (run issuer events)) !! n = Some B /\
       issuer B n = Issued tk /\ token tk = tok) /\
  (forall c now w i,
     i <> cell c ->
     cells (snd (auth_callback issuer c now w)) !! i = cells w !! i) /\
  (forall c now w w',
     cells w !! cell c = cells w' !! cell c ->
     length (get_token_calls w) = length (get_token_calls w') ->
     fst (auth_callback issuer c now w) = fst (auth_callback issuer c now w')) /\
  (forall w, exists a b,
     chat_credentials w =
       (Ok (a, b), mkWorld (cells w ++ [None; None]) (get_token_calls w)) /\
     scope a = "https://cognitiveservices.azure.com/.default" /\
     scope b = "https://dynamicsessions.io/.default" /\
     cell a <> cell b).
Proof.
  repeat split.
  - intros B tok Hin.
    destruct (slots_owned_run issuer events) as (_ & _ & _ & Hout).
    destruct (Hout B tok Hin) as (tk & (n & Hn & Hi) & Htok). eauto.
  - intros c now w i. apply auth_callback_frame.
  - intros c now w w'. apply auth_callback_own_slot_only.
  - intros w. do 2 eexists. rewrite chat_credentials_spec.
    repeat split. simpl. lia.
Qed.

(** ** The slots of one request *)

Lemma slot_replaced_only_when_expired issuer c now w i t :
  cells w !! i = Some (Some t) ->
  cells (snd (auth_callback issuer c now w)) !! i = Some (Some t) \/
  (i = cell c /\ expires_on t < now /\
   exists t', cells (snd (auth_callback issuer c now w)) !! i = Some (Some t')).
Proof.
  intros Hi. destruct (decide (i = cell c)) as [-> | Hne].
  - destruct (Z.ltb_spec (expires_on t) now) as [Hlt | Hle].
    + right. repeat split; [exact Hlt|].
      eapply auth_callback_keeps_filled; exact Hi.
    + left. now rewrite (auth_callback_cached issuer c now w t Hi Hle).
  - left. now rewrite auth_callback_frame.
Qed.

Lemma run_uses_cons issuer a b u rest w :
  snd (run_uses issuer a b (u :: rest) w) =
    match fst (auth_callback issuer (use_closure a b u) (use_time u) w) with
    | Ok _ =>
        snd (run_uses issuer a b rest
               (snd (auth_callback issuer (use_closure a b u) (use_time u) w)))
    | Raise _ => snd (auth_callback issuer (use_closure a b u) (use_time u) w)
    end.
Proof.
  simpl. unfold bind at 1.
  destruct u as [now | now]; simpl;
    [destruct (auth_callback issuer a now w) as [[tok|e] w1]
    |destruct (auth_callback issuer b now w) as [[tok|e] w1]];
    simpl; try reflexivity;
    unfold bind; destruct (run_uses issuer a b rest w1) as [[toks|e'] w2];
    reflexivity.
Qed.

Lemma run_uses_cells issuer a b uses w :
  length (cells (snd (run_uses issuer a b uses w))) = length (cells w) /\
  (forall i, i <> cell a -> i <> cell b ->
     cells (snd (run_uses issuer a b uses w)) !! i = cells w !! i).
Proof.
  revert w. induction uses as [|u rest IH]; intros w; [split; reflexivity|].
  rewrite run_uses_cons.
  set (c := use_closure a b u). set (now := use_time u).
  assert (Hframe : forall i, i <> cell a -> i <> cell b -> i <> cell c)
    by (intros i Ha Hb; subst c; destruct u; assumption).
  destruct (fst (auth_callback issuer c now w)).
  - destruct (IH (snd (auth_callback issuer c now w))) as [Hlen Hother]. split.
    + rewrite Hlen. apply auth_callback_length.
    + intros i Ha Hb. rewrite Hother by assumption.
      apply auth_callback_frame. now apply Hframe.
  - split; [apply auth_callback_length|].
    intros i Ha Hb. apply auth_callback_frame. now apply Hframe.
Qed.

Lemma run_uses_log issuer a b uses w :
  exists more,
    get_token_calls (snd (run_uses issuer a b uses w)) = get_token_calls w ++ more.
Proof.
  revert w. induction uses as [|u rest IH]; intros w.
  - exists []. simpl. now rewrite app_nil_r.
  - rewrite run_uses_cons.
    set (c := use_closure a b u). set (now := use_time u).
    assert (Hone : exists l, get_token_calls (snd (auth_callback issuer c now w)) =
                             get_token_calls w ++ l).
    { destruct (auth_callback_log issuer c now w) as [-> | ->];
        [exists []; now rewrite app_nil_r | eauto]. }
    destruct Hone as [l Hl].
    destruct (fst (auth_callback issuer c now w)); [|eauto].
    destruct (IH (snd (auth_callback issuer c now w))) as [more ->].
    exists (l ++ more). now rewrite Hl, app_assoc.
Qed.

(** The first use of a callback whose slot is empty goes to the issuer. *)
Lemma run_uses_first_use issuer a b u rest w :
  cells w !! cell (use_closure a b u) = Some None ->
  exists more,
    get_token_calls (snd (run_uses issuer a b (u :: rest) w)) =
      get_token_calls w ++ scope (use_closure a b u) :: more.
Proof.
  intros Hempty. rewrite run_uses_cons.
  set (c := use_closure a b u) in *. set (now := use_time u).
  pose proof (auth_callback_refresh_log issuer c now w None Hempty eq_refl) as Hl.
  destruct (fst (auth_callback issuer c now w)).
  - destruct (run_uses_log issuer a b rest (snd (auth_callback issuer c now w)))
      as [more ->].
    exists more. now rewrite Hl, <- app_assoc.
  - exists []. exact Hl.
Qed.

Section ChatFacts.

Variable issuer : Scope -> nat -> IssuerReply.
Variable sessions_tool_functions : list F.t.
Variable chat_description : option string.
Variable chat_parameters : list P.t.
Variable backend :
  string -> AzureChatPromptExecutionSettings -> list CredentialUse * string.

Let settings := req_settings sessions_tool_functions chat_description chat_parameters.
Let handler :=
  chat issuer sessions_tool_functions chat_description chat_parameters backend.

(** The state a request leaves behind is the one its credential uses
    leave, started on two new empty slots. *)
Lemma chat_world message w :
  snd (handler message w) =
    snd (run_uses issuer
           (mkClosure cognitive_scope (length (cells w)))
           (mkClosure sessions_scope (S (length (cells w))))
           (fst (backend message settings))
           (mkWorld (cells w ++ [None; None]) (get_token_calls w))).
Proof.
  unfold handler, chat, bind at 1. rewrite chat_credentials_spec.
  fold settings. destruct (backend message settings) as [uses answer]. simpl.
  unfold bind.
  destruct (run_uses issuer _ _ uses _) as [[toks|e] w2]; reflexivity.
Qed.

End ChatFacts.

(** C3, as the specification words it, fails across requests: the first
    request obtains a sessions token valid until second 1000, and the
    second request, one second later, starts on empty slots of its own
    and asks the issuer again. *)
Lemma later_request_does_not_reuse_token :
  let issuer := fun (_ : Scope) (_ : nat) => Issued (mkAccessToken "tok" 1000) in
  let backend := fun (message : string) (_ : AzureChatPromptExecutionSettings) =>
    ([UseSessionsAuth (if decide (message = "first") then 10 else 11)], "answer") in
  let handler := chat issuer [] None [] backend in
  let w1 := snd (handler "first" (mkWorld [] [])) in
  let w2 := snd (handler "second" w1) in
  cells w1 = [None; Some (mkAccessToken "tok" 1000)] /\
  get_token_calls w1 = ["https://dynamicsessions.io/.default"] /\
  11 < 1000 /\
  cells w2 = [None; Some (mkAccessToken "tok" 1000);
              None; Some (mkAccessToken "tok" 1000)] /\
  get_token_calls w2 = ["https://dynamicsessions.io/.default";
                        "https://dynamicsessions.io/.default"].
Proof. repeat split. Qed.

(** C3 (amended): a token slot belongs to one closure returned by
    [auth_callback_factory], and [chat] creates two new empty slots on
    every request. A request leaves the slots of earlier requests as they
    were, and its first credential use asks the issuer whatever they hold.
    Within its closure a slot is only ever overwritten with a token, and
    only by a call made after the stored token's [expires_on]; nothing
    empties it. *)
Theorem chat_slots_are_per_request
    issuer sessions_tool_functions chat_description chat_parameters backend
    message w :
  let w' := snd (chat issuer sessions_tool_functions chat_description
                   chat_parameters backend message w) in
  cells (snd (chat_credentials w)) = cells w ++ [None; None] /\
  length (cells w') = (length (cells w) + 2)%nat /\
  (forall i, (i < length (cells w))%nat -> cells w' !! i = cells w !! i) /\
  match fst (backend message
               (req_settings sessions_tool_functions chat_description
                  chat_parameters)) with
  | [] => get_token_calls w' = get_token_calls w
  | u :: _ => exists more, get_token_calls w' = get_token_calls w ++ use_scope u :: more
  end /\
  (forall c now w0 i t,
     cells w0 !! i = Some (Some t) ->
     cells (snd (auth_callback issuer c now w0)) !! i = Some (Some t) \/
     (i = cell c /\ expires_on t < now /\
      exists t', cells (snd (auth_callback issuer c now w0)) !! i = Some (Some t'))).
Proof.
  intros w'. subst w'. rewrite chat_world.
  set (a := mkClosure cognitive_scope (length (cells w))).
  set (b := mkClosure sessions_scope (S (length (cells w)))).
  set (w0 := mkWorld (cells w ++ [None; None]) (get_token_calls w)).
  set (uses := fst (backend message _)).
  destruct (run_uses_cells issuer a b uses w0) as [Hlen Hother].
  split; [now rewrite chat_credentials_spec|].
  split; [rewrite Hlen; subst w0; simpl; rewrite length_app; reflexivity|].
  split.
  { intros i Hi. rewrite Hother by (subst a b; simpl; lia).
    subst w0. simpl. now apply lookup_app_l. }
  split.
  { destruct uses as [|u rest]; [reflexivity|].
    assert (Hempty : cells w0 !! cell (use_closure a b u) = Some None).
    { subst w0 a b. destruct u; simpl.
      - now apply list_lookup_middle.
      - rewrite (app_assoc (cells w) [None] [None] : cells w ++ [None; None] = _).
        apply list_lookup_middle. rewrite length_app. simpl. lia. }
    destruct (run_uses_first_use issuer a b u rest w0 Hempty) as [more Hmore].
    exists more. rewrite Hmore. subst a b. now destruct u. }
  intros c now w1 i t. apply slot_replaced_only_when_expired.
Qed.

(** ** Comprehensions and dictionaries *)

Lemma list_comprehension_acc {A B} (item : A -> B) (cond : A -> bool) xs acc :
  fold_left (fun acc x => if cond x then acc ++ [item x] else acc) xs acc =
    acc ++ map item (List.filter cond xs).
Proof.
  revert acc. induction xs as [|x xs IH]; intros acc; simpl.
  - now rewrite app_nil_r.
  - rewrite IH. destruct (cond x); [|reflexivity].
    simpl. now rewrite <- app_assoc.
Qed.

Lemma list_comprehension_spec {A B} (item : A -> B) (cond : A -> bool) xs :
  list_comprehension item cond xs = map item (List.filter cond xs).
Proof. unfold list_comprehension. now rewrite list_comprehension_acc. Qed.

Lemma list_comprehension_all {A B} (item : A -> B) xs :
  list_comprehension item (fun _ => true) xs = map item xs.
Proof.
  rewrite list_comprehension_spec. f_equal.
  induction xs as [|x xs IH]; simpl; [reflexivity | now rewrite IH].
Qed.

Lemma dict_lookup_setitem {V} (d : list (string * V)) k v k' :
  dict_lookup (dict_setitem d k v) k' =
    if decide (k = k') then Some v else dict_lookup d k'.
Proof.
  induction d as [|[k0 v0] d IH]; simpl.
  - reflexivity.
  - destruct (decide (k0 = k)) as [-> | Hne]; simpl.
    + destruct (decide (k = k')); reflexivity.
    + rewrite IH. destruct (decide (k0 = k')) as [-> | Hne'];
        [|reflexivity].
      destruct (decide (k = k')); [congruence | reflexivity].
Qed.

Lemma last_such_init {A} (test : A -> bool) xs init :
  fold_left (fun found x => if test x then Some x else found) xs init =
    match last_such test xs with
    | Some y => Some y
    | None => init
    end.
Proof.
  unfold last_such. revert init. induction xs as [|x xs IH]; intros init; simpl.
  - reflexivity.
  - rewrite IH. rewrite (IH (if test x then Some x else None)).
    destruct (fold_left _ xs None); [reflexivity|].
    destruct (test x); reflexivity.
Qed.

Lemma dict_comprehension_acc {A V} (key : A -> string) (value : A -> V) xs d k :
  dict_lookup (fold_left (fun d x => dict_setitem d (key x) (value x)) xs d) k =
    match last_such (fun x => bool_decide (key x = k)) xs with
    | Some x => Some (value x)
    | None => dict_lookup d k
    end.
Proof.
  revert d. induction xs as [|x xs IH]; intros d; simpl; [reflexivity|].
  rewrite IH. unfold last_such at 2. simpl.
  rewrite last_such_init.
  destruct (last_such _ xs); [reflexivity|].
  rewrite dict_lookup_setitem.
  destruct (decide (key x = k)) as [Heq | Hne].
  - now rewrite bool_decide_eq_true_2.
  - now rewrite bool_decide_eq_false_2.
Qed.

(** A key of a dict comprehension holds the value of the last element
    that produced this key. *)
Lemma dict_comprehension_lookup {A V} (key : A -> string) (value : A -> V) xs k :
  dict_lookup (dict_comprehension key value xs) k =
    value <$> last_such (fun x => bool_decide (key x = k)) xs.
Proof.
  unfold dict_comprehension. rewrite dict_comprehension_acc.
  destruct (last_such _ xs); reflexivity.
Qed.

(** ** The synthesized schema *)

(** Below ["function"]["parameters"]["properties"] a tool holds the
    properties dict of its function. *)
Lemma tool_properties_path f rest :
  json_path ("function" :: "parameters" :: "properties" :: rest) (tool f) =
    json_path rest (JObject (properties f)).
Proof. reflexivity. Qed.

(** C5: the type tag of a parameter is looked up in the six-entry table
    and anything else, a missing tag included, gives ["string"]. The tool
    synthesized for a function stores, under
    ["function"]["parameters"], the properties dict whose key [n] holds
    the schema, with the mapped type, of the (last) parameter called [n],
    and the required list. The callback yields a tool list for every
    configuration, one entry per available function, and for the
    specification's example the entry has properties
    [{n: {type: "integer"}, s: {type: "string"}}] (each with an empty
    description) and required [["n"]]. *)
Theorem schema_types_follow_table :
  (forall tag : string,
     dict_get python_to_json_schema_type (Some tag) "string" =
       if decide (tag = "str") then "string"
       else if decide (tag = "int") then "integer"
       else if decide (tag = "float") then "number"
       else if decide (tag = "bool") then "boolean"
       else if decide (tag = "list") then "array"
       else if decide (tag = "dict") then "object"
       else "string") /\
  dict_get python_to_json_schema_type None "string" = "string" /\
  (forall p,
     json_path ["type"] (property_schema p) =
       Some (JString (dict_get python_to_json_schema_type (P.type_ p) "string"))) /\
  (forall f n,
     dict_lookup (properties f) n =
       property_schema <$>
         last_such (fun p => bool_decide (P.name p = n)) (F.parameters f)) /\
  (forall config settings,
     tools (update_settings_callback config settings) =
       Some (map tool (getattr (available_functions config) []))) /\
  properties example_function =
    [ ("n", JObject [("type", JString "integer"); ("description", JString "")]);
      ("s", JObject [("type", JString "string"); ("description", JString "")]) ] /\
  required example_function = ["n"] /\
  (forall f,
     json_path ["function"; "parameters"; "properties"] (tool f) =
       Some (JObject (properties f))) /\
  (forall f,
     json_path ["function"; "parameters"; "required"] (tool f) =
       Some (JArray (map JString (required f)))) /\
  (forall f n,
     json_path ["function"; "parameters"; "properties"; n; "type"] (tool f) =
       (fun p => JString (dict_get python_to_json_schema_type (P.type_ p) "string"))
         <$> last_such (fun p => bool_decide (P.name p = n)) (F.parameters f)) /\
  (forall f n,
     json_path ["function"; "parameters"; "properties"; n; "description"] (tool f) =
       (fun p => JString (or_empty (P.description p)))
         <$> last_such (fun p => bool_decide (P.name p = n)) (F.parameters f)) /\
  (forall settings,
     tools (update_settings_callback (mkConfig (Some [example_function])) settings) =
       Some
         [ JObject
             [ ("type", JString "function");
               ("function",
                JObject
                  [ ("name", JString "example");
                    ("description", JString "");
                    ("parameters",
                     JObject
                       [ ("type", JString "object");
                         ("properties",
                          JObject
                            [ ("n", JObject [("type", JString "integer");
                                             ("description", JString "")]);
                              ("s", JObject [("type", JString "string");
                                             ("description", JString "")]) ]);
                         ("required", JArray [JString "n"]) ]) ]) ] ]).
Proof.
  split; [|split; [|split; [|split; [|split; [|split; [|split;
    [|split; [|split; [|split; [|split]]]]]]]]]]; try reflexivity.
  - intros tag. unfold dict_get, python_to_json_schema_type. simpl.
    repeat case_decide; subst; try reflexivity; congruence.
  - intros f n. apply dict_comprehension_lookup.
  - intros config settings. unfold update_settings_callback. simpl.
    now rewrite list_comprehension_all.
  - intros f n. rewrite tool_properties_path.
    change (json_path [n; "type"] (JObject (properties f)))
      with (match dict_lookup (properties f) n with
            | Some v => json_path ["type"] v
            | None => None
            end).
    unfold properties. rewrite dict_comprehension_lookup.
    destruct (last_such _ (F.parameters f)); reflexivity.
  - intros f n. rewrite tool_properties_path.
    change (json_path [n; "description"] (JObject (properties f)))
      with (match dict_lookup (properties f) n with
            | Some v => json_path ["description"] v
            | None => None
            end).
    unfold properties. rewrite dict_comprehension_lookup.
    destruct (last_such _ (F.parameters f)); reflexivity.
Qed.


(** ** The tool list of a request *)

Lemma elem_of_available k ex f :
  f ∈ List.filter (fun f => negb (excluded ex f)) (functions k) <->
  (f ∈ functions k /\ F.plugin_name f ∉ ex).
Proof.
  rewrite list_elem_of_In, filter_In, <- list_elem_of_In. unfold excluded.
  rewrite negb_true_iff, bool_decide_eq_false. reflexivity.
Qed.

Lemma configure_tools ex k settings :
  tools (configure ex k update_settings_callback settings) =
    Some (map tool (List.filter (fun f => negb (excluded ex f)) (functions k))).
Proof.
  unfold configure, update_settings_callback, get_config. simpl.
  now rewrite list_comprehension_all.
Qed.

(** C1: whatever the kernel holds and whatever the excluded-plugin set,
    the tool list is made from exactly the registered functions whose
    plugin is not excluded. In [chat] the prompt function is registered
    under ["ChatBot"], which is excluded, so no entry of the request's
    tool list is made from it; and when the sessions plugin has no
    function called ["Chat"], no entry carries that name. *)
Theorem excluded_plugins_never_offered
    sessions_tool_functions chat_description chat_parameters :
  (forall k ex settings, exists offered,
     tools (configure ex k update_settings_callback settings) =
       Some (map tool offered) /\
     (forall f, f ∈ offered <-> (f ∈ functions k /\ F.plugin_name f ∉ ex))) /\
  chat_function chat_description chat_parameters ∈
    functions (chat_kernel sessions_tool_functions chat_description chat_parameters) /\
  F.plugin_name (chat_function chat_description chat_parameters) ∈ excluded_plugins /\
  (exists offered,
     tools (req_settings sessions_tool_functions chat_description chat_parameters) =
       Some (map tool offered) /\
     (chat_function chat_description chat_parameters ∉ offered) /\
     (forall f, f ∈ offered -> F.plugin_name f = "SessionsTool")) /\
  ((forall f, f ∈ sessions_tool_functions -> F.name f <> "Chat") ->
   forall ts t,
     tools (req_settings sessions_tool_functions chat_description chat_parameters) =
       Some ts ->
     t ∈ ts ->
     json_path ["function"; "name"] t <> Some (JString "Chat")).
Proof.
  assert (Hoffered : forall f,
    f ∈ List.filter (fun f => negb (excluded excluded_plugins f))
          (functions (chat_kernel sessions_tool_functions chat_description
                        chat_parameters)) ->
    F.plugin_name f = "SessionsTool" /\
    exists g, g ∈ sessions_tool_functions /\ F.name f = F.name g).
  { intros f Hf. apply elem_of_available in Hf as [Hin Hex].
    unfold chat_kernel, add_function, add_plugin, add_service in Hin.
    simpl in Hin. apply elem_of_app in Hin as [Hin | Hin].
    - apply list_elem_of_fmap in Hin as (g & -> & Hg). simpl. eauto.
    - apply list_elem_of_singleton in Hin. subst f. exfalso. apply Hex.
      unfold excluded_plugins. simpl. apply list_elem_of_singleton. reflexivity. }
  split; [|split; [|split; [|split]]].
  - intros k ex settings. eexists. split; [apply configure_tools|].
    apply elem_of_available.
  - unfold chat_kernel, add_function. simpl.
    apply elem_of_app. right. now apply list_elem_of_singleton.
  - simpl. now apply list_elem_of_singleton.
  - eexists. split; [apply configure_tools|]. split.
    + intros Hin. apply Hoffered in Hin as [Hplugin _]. discriminate.
    + intros f Hf. now apply Hoffered in Hf.
  - intros Hnames ts t Hts Ht. unfold req_settings in Hts.
    rewrite configure_tools in Hts. injection Hts as <-.
    apply list_elem_of_fmap in Ht as (f & -> & Hf).
    apply Hoffered in Hf as (_ & g & Hg & Hname).
    simpl. rewrite Hname. intros Heq. injection Heq as Heq.
    now apply (Hnames g Hg).
Qed.

(** ** The root route *)

(** C9, as the specification words it, fails on the status: [root]
    passes no status to [RedirectResponse], whose default is 307. *)
Lemma root_status_is_not_302 :
  dict_lookup app_get "/" = Some RootEndpoint /\
  status_code root = 307 /\
  status_code root <> 302.
Proof. repeat split. discriminate. Qed.

(** C9 (amended): GET [/] is served by [root], which answers with a
    redirect to [/docs] carrying [RedirectResponse]'s default status,
    307. *)
Theorem root_redirects_to_docs :
  dict_lookup app_get "/" = Some RootEndpoint /\
  root = RedirectResponse "/docs" default_redirect_status /\
  status_code root = 307 /\
  location root = Some "/docs".
Proof. repeat split. Qed.

(** * Further properties of the code *)

(** ** Failure and staleness of one call *)

(** X1: a call on a closure's slot raises only when it had to refresh
    and the issuer raised; the exception is the wrapped
    [ClientAuthenticationError] or the issuer's other exception as it
    came. In particular the final [auth_token.token] never meets [None]. *)
Theorem auth_callback_raises_only_for_issuer issuer c now w slot e :
  cells w !! cell c = Some slot ->
  fst (auth_callback issuer c now w) = Raise e ->
  needs_refresh slot now = true /\
  ((exists messages,
      issuer (scope c) (length (get_token_calls w)) =
        ClientAuthenticationError messages /\
      e = FunctionExecutionException
            (failure_prefix +:+ join " " (getattr messages []))) \/
   (exists what,
      issuer (scope c) (length (get_token_calls w)) = OtherError what /\
      e = Propagated what)).
Proof.
  intros Hc He. destruct (needs_refresh slot now) eqn:Hn.
  - split; [reflexivity|].
    destruct (issuer (scope c) (length (get_token_calls w))) as [t'|m|what] eqn:Hi.
    + rewrite (auth_callback_issued issuer c now w slot t' Hc Hn Hi) in He.
      discriminate.
    + rewrite (auth_callback_rejected issuer c now w slot m Hc Hn Hi) in He.
      left. exists m. split; [reflexivity|]. simpl in He. congruence.
    + rewrite (auth_callback_other_error issuer c now w slot what Hc Hn Hi) in He.
      right. exists what. split; [reflexivity|]. simpl in He. congruence.
  - apply needs_refresh_false_inv in Hn as (t & -> & Hle).
    rewrite (auth_callback_cached issuer c now w t Hc Hle) in He. discriminate.
Qed.

Lemma auth_callback_raises_only_for_issuer_witness :
  let issuer := fun (_ : Scope) (_ : nat) => OtherError "ServiceRequestError" in
  let c := mkClosure "https://dynamicsessions.io/.default" 0 in
  let w := mkWorld [Some (mkAccessToken "stale" 50)] [] in
  needs_refresh (Some (mkAccessToken "stale" 50)) 100 = true /\
  ((exists messages,
      issuer (scope c) (length (get_token_calls w)) =
        ClientAuthenticationError messages /\
      Propagated "ServiceRequestError" =
        FunctionExecutionException
          (failure_prefix +:+ join " " (getattr messages []))) \/
   (exists what,
      issuer (scope c) (length (get_token_calls w)) = OtherError what /\
      Propagated "ServiceRequestError" = Propagated what)).
Proof.
  apply (auth_callback_raises_only_for_issuer
           (fun _ _ => OtherError "ServiceRequestError")
           (mkClosure "https://dynamicsessions.io/.default" 0) 100
           (mkWorld [Some (mkAccessToken "stale" 50)] [])
           (Some (mkAccessToken "stale" 50))
           (Propagated "ServiceRequestError"));
    reflexivity.
Defined.

(** X2: an exception of the issuer other than
    [ClientAuthenticationError] is not caught: it leaves the call as it
    is, after one request, with the slot untouched. *)
Theorem other_exception_escapes_unwrapped issuer c now w slot what :
  cells w !! cell c = Some slot ->
  needs_refresh slot now = true ->
  issuer (scope c) (length (get_token_calls w)) = OtherError what ->
  fst (auth_callback issuer c now w) = Raise (Propagated what) /\
  cells (snd (auth_callback issuer c now w)) = cells w /\
  get_token_calls (snd (auth_callback issuer c now w)) =
    get_token_calls w ++ [scope c].
Proof.
  intros Hc Hn Hi.
  rewrite (auth_callback_other_error issuer c now w slot what Hc Hn Hi).
  repeat split.
Qed.

Lemma other_exception_escapes_unwrapped_witness :
  let issuer := fun (_ : Scope) (_ : nat) => OtherError "ServiceRequestError" in
  let c := mkClosure "https://cognitiveservices.azure.com/.default" 0 in
  let w := mkWorld [None] [] in
  fst (auth_callback issuer c 100 w) = Raise (Propagated "ServiceRequestError") /\
  cells (snd (auth_callback issuer c 100 w)) = cells w /\
  get_token_calls (snd (auth_callback issuer c 100 w)) =
    get_token_calls w ++ [scope c].
Proof.
  apply (other_exception_escapes_unwrapped
           (fun _ _ => OtherError "ServiceRequestError")
           (mkClosure "https://cognitiveservices.azure.com/.default" 0) 100
           (mkWorld [None] []) None "ServiceRequestError");
    reflexivity.
Defined.

(** X3: a token the issuer has just granted is stored and returned
    without a look at its [expires_on]; if it is already past, the next
    call, at the same second or later, asks the issuer again. *)
Theorem expired_grant_returned_then_refetched issuer c now now' w slot t' :
  cells w !! cell c = Some slot ->
  needs_refresh slot now = true ->
  issuer (scope c) (length (get_token_calls w)) = Issued t' ->
  expires_on t' < now ->
  now <= now' ->
  fst (auth_callback issuer c now w) = Ok (token t') /\
  cells (snd (auth_callback issuer c now w)) !! cell c = Some (Some t') /\
  get_token_calls
    (snd (auth_callback issuer c now' (snd (auth_callback issuer c now w)))) =
  get_token_calls w ++ [scope c; scope c].
Proof.
  intros Hc Hn Hi Hexp Hle.
  rewrite (auth_callback_issued issuer c now w slot t' Hc Hn Hi). simpl.
  assert (Hs : <[cell c:=Some t']> (cells w) !! cell c = Some (Some t'))
    by (apply list_lookup_insert_eq; eapply lookup_lt_Some; exact Hc).
  repeat split; [exact Hs|].
  erewrite auth_callback_refresh_log.
  - simpl. now rewrite <- app_assoc.
  - exact Hs.
  - simpl. apply Z.ltb_lt. lia.
Qed.

Lemma expired_grant_returned_then_refetched_witness :
  let issuer := fun (_ : Scope) (_ : nat) => Issued (mkAccessToken "late" 90) in
  let c := mkClosure "https://dynamicsessions.io/.default" 0 in
  let w := mkWorld [None] [] in
  fst (auth_callback issuer c 100 w) = Ok "late" /\
  cells (snd (auth_callback issuer c 100 w)) !! cell c =
    Some (Some (mkAccessToken "late" 90)) /\
  get_token_calls
    (snd (auth_callback issuer c 100 (snd (auth_callback issuer c 100 w)))) =
  get_token_calls w ++ [scope c; scope c].
Proof.
  apply (expired_grant_returned_then_refetched
           (fun _ _ => Issued (mkAccessToken "late" 90))
           (mkClosure "https://dynamicsessions.io/.default" 0) 100 100
           (mkWorld [None] []) None (mkAccessToken "late" 90));
    [reflexivity | reflexivity | reflexivity | simpl; lia | lia].
Defined.

(** X4: a token handed out without a request to the issuer is the one
    in the slot, and its [expires_on] is not before the current second. *)
Theorem cached_result_not_stale issuer c now w slot tok :
  cells w !! cell c = Some slot ->
  fst (auth_callback issuer c now w) = Ok tok ->
  get_token_calls (snd (auth_callback issuer c now w)) = get_token_calls w ->
  exists t, slot = Some t /\ token t = tok /\ now <= expires_on t /\
            snd (auth_callback issuer c now w) = w.
Proof.
  intros Hc Hok Hlog. destruct (needs_refresh slot now) eqn:Hn.
  - rewrite (auth_callback_refresh_log issuer c now w slot Hc Hn) in Hlog.
    apply (f_equal length) in Hlog. rewrite length_app in Hlog.
    simpl in Hlog. lia.
  - apply needs_refresh_false_inv in Hn as (t & -> & Hle).
    rewrite (auth_callback_cached issuer c now w t Hc Hle) in *.
    exists t. simpl in Hok. repeat split; [congruence | exact Hle].
Qed.

Lemma cached_result_not_stale_witness :
  let issuer := fun (_ : Scope) (_ : nat) => Issued (mkAccessToken "new" 900) in
  let c := mkClosure "https://dynamicsessions.io/.default" 0 in
  let w := mkWorld [Some (mkAccessToken "kept" 500)] [] in
  exists t, Some (mkAccessToken "kept" 500) = Some t /\ token t = "kept" /\
            500 <= expires_on t /\
            snd (auth_callback issuer c 500 w) = w.
Proof.
  apply (cached_result_not_stale
           (fun _ _ => Issued (mkAccessToken "new" 900))
           (mkClosure "https://dynamicsessions.io/.default" 0) 500
           (mkWorld [Some (mkAccessToken "kept" 500)] [])
           (Some (mkAccessToken "kept" 500)) "kept");
    reflexivity.
Defined.

(** ** Counting requests over a run *)

Lemma step_counts issuer p e :
  let p' := step issuer p e in
  length (cells (world p')) =
    (length (cells (world p)) + (if is_create e then 1 else 0))%nat /\
  length (closures p') =
    (length (closures p) + (if is_create e then 1 else 0))%nat /\
  (length (get_token_calls (world p')) <=
     length (get_token_calls (world p)) + (if is_invoke e then 1 else 0))%nat /\
  (length (handed_out p') <=
     length (handed_out p) + (if is_invoke e then 1 else 0))%nat.
Proof.
  destruct e as [s | k now]; simpl.
  - rewrite !length_app. simpl. repeat split; lia.
  - destruct (closures p !! k) as [c|]; [|repeat split; lia].
    pose proof (auth_callback_length issuer c now (world p)) as Hlen.
    pose proof (auth_callback_log issuer c now (world p)) as Hlog.
    destruct (auth_callback issuer c now (world p)) as [[tok|e] w']; simpl in *;
      rewrite ?length_app; simpl;
      (repeat split; [lia | lia | | lia]);
      destruct Hlog as [-> | ->]; rewrite ?length_app; simpl; lia.
Qed.

Lemma fold_step_counts issuer events p :
  let p' := fold_left (step issuer) events p in
  length (cells (world p')) =
    (length (cells (world p)) + length (List.filter is_create events))%nat /\
  length (closures p') =
    (length (closures p) + length (List.filter is_create events))%nat /\
  (length (get_token_calls (world p')) <=
     length (get_token_calls (world p)) + length (List.filter is_invoke events))%nat /\
  (length (handed_out p') <=
     length (handed_out p) + length (List.filter is_invoke events))%nat.
Proof.
  revert p. induction events as [|e events IH]; intros p; simpl.
  - repeat split; lia.
  - destruct (IH (step issuer p e)) as (H1 & H2 & H3 & H4).
    destruct (step_counts issuer p e) as (S1 & S2 & S3 & S4).
    destruct e; simpl in *; repeat split; lia.
Qed.

(** X5: over any interleaving from process start, there is one slot and
    one closure per call of the factory, and every call of a callback
    sends at most one request to the issuer and hands out at most one
    token: nothing is retried and nothing is requested ahead of use. *)
Theorem at_most_one_request_per_call issuer events :
  length (cells (world (run issuer events))) = length (List.filter is_create events) /\
  length (closures (run issuer events)) = length (List.filter is_create events) /\
  (length (get_token_calls (world (run issuer events))) <=
     length (List.filter is_invoke events))%nat /\
  (length (handed_out (run issuer events)) <=
     length (List.filter is_invoke events))%nat.
Proof.
  destruct (fold_step_counts issuer events start) as (H1 & H2 & H3 & H4).
  unfold run. simpl in *. repeat split; assumption.
Qed.

(** ** Requests while the tokens last *)

Lemma filled_slots_le slots : (filled_slots slots <= length slots)%nat.
Proof. induction slots as [|[t|] slots IH]; simpl; lia. Qed.

Lemma filled_slots_app_none slots :
  filled_slots (slots ++ [None]) = filled_slots slots.
Proof. induction slots as [|[t|] slots IH]; simpl; congruence. Qed.

Lemma filled_slots_insert slots k t :
  slots !! k = Some None ->
  filled_slots (<[k := Some t]> slots) = S (filled_slots slots).
Proof.
  revert k. induction slots as [|s slots IH]; intros k Hk; [discriminate|].
  destruct k as [|k]; simpl in *.
  - injection Hk as ->. reflexivity.
  - rewrite (IH k Hk). destruct s; reflexivity.
Qed.

(** A call no later than [T] on a slot that lasts until [T] succeeds; it
    asks the issuer exactly when the slot is empty, and fills it. *)
Lemma auth_callback_while_valid issuer T c now w slot :
  grants_until issuer T ->
  cells w !! cell c = Some slot ->
  lasts_until T slot ->
  now <= T ->
  match slot with
  | Some t => auth_callback issuer c now w = (Ok (token t), w)
  | None =>
      exists tk, T <= expires_on tk /\
        auth_callback issuer c now w =
          (Ok (token tk),
           mkWorld (<[cell c := Some tk]> (cells w)) (get_token_calls w ++ [scope c]))
  end.
Proof.
  intros Hgrants Hc Hlast Hnow. destruct slot as [t|]; simpl in Hlast.
  - apply auth_callback_cached; [exact Hc | lia].
  - destruct (Hgrants (scope c) (length (get_token_calls w))) as (tk & Hi & Hexp).
    exists tk. split; [exact Hexp|].
    now apply (auth_callback_issued issuer c now w None tk).
Qed.

Lemma requests_match_slots_step issuer T p e :
  grants_until issuer T ->
  match e with Invoke _ now => now <= T | Create _ => True end ->
  slots_owned issuer p ->
  requests_match_slots T p ->
  requests_match_slots T (step issuer p e).
Proof.
  intros Hgrants Hnow (Hlen & Hcell & _) (Hreq & Hall).
  destruct e as [s | k now]; simpl.
  - split; simpl.
    + now rewrite filled_slots_app_none.
    + apply Forall_app. split; [exact Hall|]. now repeat constructor.
  - destruct (closures p !! k) as [c|] eqn:Hk; [|now split].
    pose proof (Hcell k c Hk) as Hck.
    assert (Hlt : (cell c < length (cells (world p)))%nat)
      by (rewrite Hck, <- Hlen; eapply lookup_lt_Some; exact Hk).
    destruct (lookup_lt_is_Some_2 _ _ Hlt) as [slot Hs].
    pose proof (proj1 (Forall_lookup _ _) Hall _ _ Hs) as Hlast.
    pose proof (auth_callback_while_valid issuer T c now (world p) slot
                  Hgrants Hs Hlast Hnow) as Hcall.
    destruct slot as [t|].
    + rewrite Hcall. now split.
    + destruct Hcall as (tk & Hexp & ->). split; simpl.
      * rewrite length_app, (filled_slots_insert _ _ _ Hs). simpl. lia.
      * apply Forall_insert; assumption.
Qed.

Lemma requests_match_slots_fold issuer T events p :
  grants_until issuer T ->
  (forall k now, Invoke k now ∈ events -> now <= T) ->
  slots_owned issuer p ->
  requests_match_slots T p ->
  requests_match_slots T (fold_left (step issuer) events p).
Proof.
  intros Hgrants. revert p.
  induction events as [|e events IH]; intros p Hnow Hown Hreq; [exact Hreq|].
  simpl. apply IH.
  - intros k now Hin. apply (Hnow k now). now apply list_elem_of_further.
  - destruct e; [now apply slots_owned_create | now apply slots_owned_invoke].
  - apply requests_match_slots_step; try assumption.
    destruct e as [s | k now]; [exact I|].
    apply (Hnow k now). apply list_elem_of_here.
Qed.

(** X6: while the issuer grants tokens that last until second [T] and
    every call happens no later than [T], the issuer has been asked
    exactly once per slot that holds a token, hence at most once per
    closure, however often and in whatever order the closures are
    called. *)
Theorem one_request_per_closure_while_valid issuer T events :
  grants_until issuer T ->
  (forall k now, Invoke k now ∈ events -> now <= T) ->
  length (get_token_calls (world (run issuer events))) =
    filled_slots (cells (world (run issuer events))) /\
  (length (get_token_calls (world (run issuer events))) <=
     length (closures (run issuer events)))%nat.
Proof.
  intros Hgrants Hnow.
  destruct (requests_match_slots_fold issuer T events start Hgrants Hnow
              (slots_owned_start issuer)) as [Hreq _].
  { split; [reflexivity | constructor]. }
  fold (run issuer events) in Hreq. split; [exact Hreq|].
  destruct (slots_owned_run issuer events) as (Hlen & _).
  rewrite Hreq, Hlen. apply filled_slots_le.
Qed.

Lemma one_request_per_closure_while_valid_witness :
  let issuer := fun (_ : Scope) (_ : nat) => Issued (mkAccessToken "tok" 1000) in
  let events := [Create "https://dynamicsessions.io/.default";
                 Invoke 0 10; Invoke 0 20; Invoke 0 1000] in
  length (get_token_calls (world (run issuer events))) =
    filled_slots (cells (world (run issuer events))) /\
  (length (get_token_calls (world (run issuer events))) <=
     length (closures (run issuer events)))%nat.
Proof.
  apply (one_request_per_closure_while_valid
           (fun _ _ => Issued (mkAccessToken "tok" 1000)) 1000
           [Create "https://dynamicsessions.io/.default";
            Invoke 0 10; Invoke 0 20; Invoke 0 1000]).
  - intros s n. exists (mkAccessToken "tok" 1000). split; [reflexivity | simpl; lia].
  - intros k now Hin.
    repeat (apply elem_of_cons in Hin as [Hin | Hin];
            [try discriminate Hin; injection Hin as _ ->; lia|]).
    now apply elem_of_nil in Hin.
Defined.

(** ** One request while the tokens last *)




(** ** The keys of ["properties"] *)

Lemma dict_setitem_keys {V} (d : list (string * V)) k v n :
  n ∈ map fst (dict_setitem d k v) <-> (n = k \/ n ∈ map fst d).
Proof.
  induction d as [|[k0 v0] d IH]; simpl.
  - rewrite list_elem_of_singleton. split; [now left | intros [H | H]; [exact H|]].
    now apply elem_of_nil in H.
  - destruct (decide (k0 = k)) as [-> | Hne]; simpl.
    + rewrite elem_of_cons. tauto.
    + rewrite !elem_of_cons, IH. tauto.
Qed.

Lemma dict_setitem_NoDup {V} (d : list (string * V)) k v :
  NoDup (map fst d) -> NoDup (map fst (dict_setitem d k v)).
Proof.
  induction d as [|[k0 v0] d IH]; simpl; intros Hd.
  - apply NoDup_cons. split; [apply not_elem_of_nil | constructor].
  - apply NoDup_cons in Hd as [Hnotin Hd].
    destruct (decide (k0 = k)) as [-> | Hne]; simpl.
    + apply NoDup_cons. now split.
    + apply NoDup_cons. split; [|now apply IH].
      rewrite dict_setitem_keys. intros [Heq | Hin]; [congruence | contradiction].
Qed.

Lemma dict_setitem_fresh {V} (d : list (string * V)) k v :
  k ∉ map fst d -> dict_setitem d k v = d ++ [(k, v)].
Proof.
  induction d as [|[k0 v0] d IH]; simpl; intros Hk; [reflexivity|].
  rewrite not_elem_of_cons in Hk. destruct Hk as [Hne Hk].
  destruct (decide (k0 = k)); [congruence|]. now rewrite IH.
Qed.

Lemma dict_comprehension_keys {A V} (key : A -> string) (value : A -> V) xs d :
  NoDup (map fst d) ->
  NoDup (map fst (fold_left (fun d x => dict_setitem d (key x) (value x)) xs d)) /\
  forall n,
    n ∈ map fst (fold_left (fun d x => dict_setitem d (key x) (value x)) xs d) <->
    (n ∈ map fst d \/ n ∈ map key xs).
Proof.
  revert d. induction xs as [|x xs IH]; intros d Hd; simpl.
  - split; [exact Hd|]. intros n. split; [now left | intros [H | H]; [exact H|]].
    now apply elem_of_nil in H.
  - destruct (IH (dict_setitem d (key x) (value x)) (dict_setitem_NoDup _ _ _ Hd))
      as [Hnd Hkeys].
    split; [exact Hnd|]. intros n.
    rewrite Hkeys, dict_setitem_keys, elem_of_cons. tauto.
Qed.

Lemma dict_comprehension_distinct {A V} (key : A -> string) (value : A -> V) xs d :
  NoDup (map fst d ++ map key xs) ->
  fold_left (fun d x => dict_setitem d (key x) (value x)) xs d =
    d ++ map (fun x => (key x, value x)) xs.
Proof.
  revert d. induction xs as [|x xs IH]; intros d Hnd; simpl.
  - now rewrite app_nil_r.
  - assert (Hfresh : key x ∉ map fst d).
    { apply NoDup_app in Hnd as (_ & Hdisj & _). intros Hin.
      apply (Hdisj _ Hin). simpl. apply list_elem_of_here. }
    rewrite (dict_setitem_fresh d _ _ Hfresh), IH.
    + now rewrite <- app_assoc.
    + rewrite map_app. simpl. now rewrite <- app_assoc.
Qed.

(** X8: the keys of ["properties"] are the parameter names, each once:
    parameters that share a name share one entry. *)
Theorem properties_keys_are_parameter_names f :
  NoDup (map fst (properties f)) /\
  (forall n, n ∈ map fst (properties f) <-> n ∈ map P.name (F.parameters f)) /\
  (length (properties f) <= length (F.parameters f))%nat.
Proof.
  unfold properties, dict_comprehension.
  destruct (dict_comprehension_keys P.name property_schema (F.parameters f) [])
    as [Hnd Hkeys]; [constructor|].
  split; [exact Hnd|]. split.
  - intros n. rewrite Hkeys. simpl. split; [intros [H | H] | now right];
      [now apply elem_of_nil in H | exact H].
  - rewrite <- (length_map fst), <- (length_map P.name (F.parameters f)).
    apply submseteq_length, NoDup_submseteq; [exact Hnd|].
    intros n Hin.
    apply Hkeys in Hin as [Hin | Hin]; [now apply elem_of_nil in Hin | exact Hin].
Qed.

(** X9: when the parameter names are pairwise different, ["properties"]
    has one entry per parameter, in declaration order. *)
Theorem properties_of_distinct_names f :
  NoDup (map P.name (F.parameters f)) ->
  properties f = map (fun p => (P.name p, property_schema p)) (F.parameters f).
Proof.
  intros Hnd. unfold properties, dict_comprehension.
  now rewrite dict_comprehension_distinct.
Qed.

Lemma properties_of_distinct_names_witness :
  properties example_function =
    map (fun p => (P.name p, property_schema p)) (F.parameters example_function).
Proof.
  apply (properties_of_distinct_names example_function).
  simpl. apply NoDup_cons. split.
  - rewrite list_elem_of_singleton. discriminate.
  - apply NoDup_cons. split; [apply not_elem_of_nil | constructor].
Defined.

(** ** Required names, types and the order of the tools *)

Lemma last_such_cons {A} (test : A -> bool) x xs :
  last_such test (x :: xs) =
    match last_such test xs with
    | Some y => Some y
    | None => if test x then Some x else None
    end.
Proof. unfold last_such at 1. simpl. apply last_such_init. Qed.

Lemma last_such_found {A} (test : A -> bool) xs x :
  x ∈ xs -> test x = true ->
  exists y, last_such test xs = Some y /\ y ∈ xs /\ test y = true.
Proof.
  induction xs as [|x0 xs IH]; intros Hin Htest;
    [now apply elem_of_nil in Hin|].
  rewrite last_such_cons.
  destruct (last_such test xs) as [y|] eqn:Hlast.
  - assert (Hy : y ∈ xs /\ test y = true).
    { clear IH Hin. revert y Hlast. induction xs as [|x1 xs IH']; intros y Hlast;
        [discriminate|].
      rewrite last_such_cons in Hlast.
      destruct (last_such test xs) as [z|].
      - injection Hlast as <-. destruct (IH' z eq_refl) as [Hz Hzt].
        split; [now apply list_elem_of_further | exact Hzt].
      - destruct (test x1) eqn:Ht1; [|discriminate]. injection Hlast as <-.
        split; [apply list_elem_of_here | exact Ht1]. }
    exists y. split; [reflexivity|]. split; [|apply Hy].
    apply list_elem_of_further, Hy.
  - apply elem_of_cons in Hin as [-> | Hin].
    + rewrite Htest. exists x0. repeat split; [apply list_elem_of_here | exact Htest].
    + destruct (IH Hin Htest) as (y & Hy & _). discriminate.
Qed.

(** X10: every name in the required list is a key of ["properties"],
    and its entry is the schema of a parameter of that name. *)
Theorem required_names_have_properties f n :
  n ∈ required f ->
  exists p,
    p ∈ F.parameters f /\ P.name p = n /\
    dict_lookup (properties f) n = Some (property_schema p).
Proof.
  intros Hin. unfold required in Hin. rewrite list_comprehension_spec in Hin.
  apply list_elem_of_fmap in Hin as (q & -> & Hq).
  apply list_elem_of_In, filter_In in Hq as [Hq _].
  apply list_elem_of_In in Hq.
  destruct (last_such_found (fun p => bool_decide (P.name p = P.name q))
              (F.parameters f) q Hq) as (p & Hlast & Hp & Htest).
  { now apply bool_decide_eq_true_2. }
  exists p. split; [exact Hp|]. split.
  - now apply bool_decide_eq_true_1 in Htest.
  - unfold properties. rewrite dict_comprehension_lookup, Hlast. reflexivity.
Qed.

Lemma required_names_have_properties_witness :
  exists p,
    p ∈ F.parameters example_function /\ P.name p = "n" /\
    dict_lookup (properties example_function) "n" = Some (property_schema p).
Proof.
  apply (required_names_have_properties example_function "n").
  apply list_elem_of_here.
Defined.

(** X11: the type written for a parameter is always one of the six
    JSON-Schema names of the table, whatever the declared tag. *)
Theorem schema_type_is_json_primitive p :
  exists ty,
    json_path ["type"] (property_schema p) = Some (JString ty) /\
    ty ∈ ["string"; "integer"; "number"; "boolean"; "array"; "object"].
Proof.
  eexists. split; [reflexivity|].
  destruct (P.type_ p) as [tag|]; unfold dict_get, python_to_json_schema_type;
    simpl; repeat case_decide; simpl;
    repeat first [apply list_elem_of_here | apply list_elem_of_further].
Qed.

(** X12: the callback changes nothing of the settings but [tools], and
    the i-th tool describes the i-th available function: it is of type
    ["function"], carries that function's bare name, and its parameters
    are an ["object"] schema. *)
Theorem tools_follow_available_functions config settings :
  service_id (update_settings_callback config settings) = service_id settings /\
  tool_choice (update_settings_callback config settings) = tool_choice settings /\
  exists ts,
    tools (update_settings_callback config settings) = Some ts /\
    length ts = length (getattr (available_functions config) []) /\
    forall i f,
      getattr (available_functions config) [] !! i = Some f ->
      exists t,
        ts !! i = Some t /\
        json_path ["type"] t = Some (JString "function") /\
        json_path ["function"; "name"] t = Some (JString (F.name f)) /\
        json_path ["function"; "parameters"; "type"] t = Some (JString "object").
Proof.
  split; [reflexivity|]. split; [reflexivity|].
  exists (map tool (getattr (available_functions config) [])).
  split; [unfold update_settings_callback; simpl; now rewrite list_comprehension_all|].
  split; [apply length_map|].
  intros i f Hf. exists (tool f). split; [|repeat split].
  change (map tool (getattr (available_functions config) []))
    with (tool <$> getattr (available_functions config) []).
  now rewrite list_lookup_fmap, Hf.
Qed.

(** ** Descriptions that are present *)

(** X13: a description that is present is copied unchanged, for the
    function into ["function"]["description"] of its tool and for a
    parameter into the ["description"] of its schema; only a missing one
    is replaced, by the empty string. *)
Theorem present_descriptions_kept :
  (forall name plugin text parameters,
     json_path ["function"; "description"]
       (tool (F.mk name plugin (Some text) parameters)) = Some (JString text)) /\
  (forall name text type_ is_required,
     json_path ["description"]
       (property_schema (P.mk name (Some text) type_ is_required)) =
       Some (JString text)) /\
  (forall text, or_empty text = default "" text).
Proof.
  assert (Hor : forall text, or_empty (Some text) = text).
  { intros text. unfold or_empty. destruct (decide (text = "")); congruence. }
  repeat split.
  - intros name plugin text parameters.
    change (Some (JString (or_empty (Some text))) = Some (JString text)).
    now rewrite Hor.
  - intros name text type_ is_required.
    change (Some (JString (or_empty (Some text))) = Some (JString text)).
    now rewrite Hor.
  - intros [text|]; [apply Hor | reflexivity].
Qed.
